(** * kafka/server/partition_proxy.cc: resolving a partition to a proxy

    The translation unit defines two functions:

    - [make_with_impl<Impl>(args...)], which heap-allocates an [Impl] built
      from [args] and wraps the owning pointer in a [partition_proxy];
    - [make_partition_proxy(ktp, cluster_pm)], which asks the partition
      manager for the partition and, when the returned pointer tests true,
      wraps a [replicated_partition] around it; otherwise it returns
      [std::nullopt].

    The code calls into the partition manager and the allocator.  Both calls
    are kept as operations of a small program monad; [run] executes a program
    against a partition manager and a heap of adapters, and records the
    operations it performed.  Either call can throw, and neither function
    has a handler. *)

From stdpp Require Import gmap strings list.

(** ** Pointers and objects *)

(** Heap addresses of adapters. *)
Abbreviation loc := positive.

(** Identity of a live [cluster::partition] object. *)
Abbreviation partition_id := positive.

(** [ss::lw_shared_ptr<cluster::partition>]: null, or a share of a partition. *)
Inductive lw_shared_ptr : Type :=
| lw_nullptr
| lw_to (p : partition_id).

(** [explicit operator bool] of [lw_shared_ptr], as used by [if (partition)]. *)
Definition lw_bool (p : lw_shared_ptr) : bool :=
  match p with
  | lw_nullptr => false
  | lw_to _ => true
  end.

(** The classes deriving from [partition_proxy::impl].  The translation unit
    instantiates one, [replicated_partition], whose constructor takes the
    shared pointer and keeps it. *)
Inductive impl : Type :=
| replicated_partition (_partition : lw_shared_ptr).

(** The handle an adapter holds. *)
Definition handle_of (a : impl) : lw_shared_ptr :=
  match a with
  | replicated_partition p => p
  end.

(** [std::unique_ptr<partition_proxy::impl>]. *)
Inductive unique_ptr : Type :=
| u_nullptr
| u_to (l : loc).

(** Modelled from the spec: class [partition_proxy] is declared in
    partition_proxy.h, which is not part of the sources at hand.  The proxy is
    the exclusive owner of one adapter, built by handing it the owning
    pointer (line 21 of the source calls that constructor). *)
Record partition_proxy : Type := { _impl : unique_ptr }.

#[global] Instance lw_shared_ptr_eq_dec : EqDecision lw_shared_ptr.
Proof. solve_decision. Defined.
#[global] Instance impl_eq_dec : EqDecision impl.
Proof. solve_decision. Defined.
#[global] Instance unique_ptr_eq_dec : EqDecision unique_ptr.
Proof. solve_decision. Defined.
#[global] Instance partition_proxy_eq_dec : EqDecision partition_proxy.
Proof. solve_decision. Defined.

(** ** Programs over the partition manager and the allocator *)

Section Model.
(** [model::ktp], the key handed to the partition manager; the state of a
    [cluster::partition_manager]; and whatever a call may throw.  All three
    are declared outside the translation unit. *)
Context {ktp partition_manager exception : Type}.

(** What a call of [cluster_pm.get(ktp)] answers: it throws, or it returns a
    shared pointer; either way it may have changed the manager. *)
Definition get_reply : Type := (exception + lw_shared_ptr) * partition_manager.

(** The behaviour of [cluster::partition_manager::get]. *)
Variable pm_get : partition_manager -> ktp -> get_reply.

(** A program performs calls and then returns a value. *)
Inductive prog (A : Type) : Type :=
| Ret (a : A)
| Get (k : ktp) (cont : lw_shared_ptr -> prog A)
| MakeUnique (obj : impl) (cont : unique_ptr -> prog A).
#[global] Arguments Ret {A} a.
#[global] Arguments Get {A} k cont.
#[global] Arguments MakeUnique {A} obj cont.

Fixpoint bind {A B : Type} (p : prog A) (f : A -> prog B) : prog B :=
  match p with
  | Ret a => f a
  | Get k cont => Get k (fun r => bind (cont r) f)
  | MakeUnique obj cont => MakeUnique obj (fun u => bind (cont u) f)
  end.

(** [cluster_pm.get(k)] *)
Definition cluster_pm_get (k : ktp) : prog lw_shared_ptr := Get k Ret.

(** [std::make_unique<Impl>(args...)], with the object already built. *)
Definition make_unique (obj : impl) : prog unique_ptr := MakeUnique obj Ret.

Notation "x <- c ;; k" := (bind c (fun x => k))
  (at level 100, c at next level, right associativity).

(** ** The two functions of the translation unit *)

(** [[
    template<typename Impl, typename... Args>
    partition_proxy make_with_impl(Args&&... args) {
        return partition_proxy(std::make_unique<Impl>(std::forward<Args>(args)...));
    }
    ]]
    [Impl] is the constructor of the chosen class. *)
Definition make_with_impl {Args : Type} (Impl : Args -> impl) (args : Args)
  : prog partition_proxy :=
  up <- make_unique (Impl args) ;;
  Ret {| _impl := up |}.

(** [[
    std::optional<partition_proxy> make_partition_proxy(
      const model::ktp& ktp, cluster::partition_manager& cluster_pm) {
        auto partition = cluster_pm.get(ktp);
        if (partition) {
            return make_with_impl<replicated_partition>(partition);
        }
        return std::nullopt;
    }
    ]]
    The partition manager is the one of the state the program runs in. *)
Definition make_partition_proxy (k : ktp) : prog (option partition_proxy) :=
  partition <- cluster_pm_get k ;;
  if lw_bool partition then
    pp <- make_with_impl replicated_partition partition ;;
    Ret (Some pp)
  else
    Ret None.

(** ** Running a program *)

(** The partition manager and the adapters allocated so far. *)
Record state : Type := mk_state {
  cluster_pm : partition_manager;
  heap : gmap loc impl
}.

(** A call either returns or leaves by an exception. *)
Inductive outcome (A : Type) : Type :=
| Returned (a : A)
| Thrown (e : exception).
#[global] Arguments Returned {A} a.
#[global] Arguments Thrown {A} e.

(** The calls a run performed, in order: a lookup, a [make_unique] that
    placed an object, a [make_unique] that threw. *)
Inductive event : Type :=
| EvGet (k : ktp)
| EvNew (l : loc) (obj : impl)
| EvNewFailed (obj : impl).

Record run_result (A : Type) : Type := mk_run {
  result : outcome A;
  final : state;
  trace : list event
}.
#[global] Arguments mk_run {A} result final trace.
#[global] Arguments result {A} r.
#[global] Arguments final {A} r.
#[global] Arguments trace {A} r.

Definition logged {A : Type} (ev : event) (r : run_result A) : run_result A :=
  mk_run (result r) (final r) (ev :: trace r).

(** Whether [std::make_unique] throws when asked for an object in a state,
    and what: [std::bad_alloc] from [operator new], or an exception of the
    constructor.  That is decided outside the translation unit. *)
Variable new_fault : state -> impl -> option exception.

(** The address [make_unique] places the next object at when it does not
    throw: one that is not in use. *)
Definition next_loc (h : gmap loc impl) : loc := fresh (dom h).

(** The state a lookup of [k] leaves. *)
Definition after_get (k : ktp) (s : state) : state :=
  mk_state (snd (pm_get (cluster_pm s) k)) (heap s).

(** Neither function has a handler, so an exception thrown by [get] or by
    [make_unique] ends the run with that exception.  A [make_unique] that
    throws leaves nothing allocated. *)
Fixpoint run {A : Type} (p : prog A) (s : state) : run_result A :=
  match p with
  | Ret a => mk_run (Returned a) s []
  | Get k cont =>
      let reply := pm_get (cluster_pm s) k in
      let s' := mk_state (snd reply) (heap s) in
      match fst reply with
      | inl e => mk_run (Thrown e) s' [EvGet k]
      | inr p => logged (EvGet k) (run (cont p) s')
      end
  | MakeUnique obj cont =>
      match new_fault s obj with
      | Some e => mk_run (Thrown e) s [EvNewFailed obj]
      | None =>
          let l := next_loc (heap s) in
          let s' := mk_state (cluster_pm s) (<[l := obj]> (heap s)) in
          logged (EvNew l obj) (run (cont (u_to l)) s')
      end
  end.

(** ** Reading a run *)

(** The keys the partition manager was asked for. *)
Fixpoint gets (t : list event) : list ktp :=
  match t with
  | [] => []
  | EvGet k :: t' => k :: gets t'
  | EvNew _ _ :: t' => gets t'
  | EvNewFailed _ :: t' => gets t'
  end.

(** The adapters that were constructed, with their addresses. *)
Fixpoint allocations (t : list event) : list (loc * impl) :=
  match t with
  | [] => []
  | EvGet _ :: t' => allocations t'
  | EvNew l obj :: t' => (l, obj) :: allocations t'
  | EvNewFailed _ :: t' => allocations t'
  end.

(** The adapter a proxy owns in a heap, if it owns a live one. *)
Definition owned (h : gmap loc impl) (pp : partition_proxy) : option impl :=
  match _impl pp with
  | u_nullptr => None
  | u_to l => h !! l
  end.

(** A proxy is live when its pointer is not null and the object it points
    to is allocated. *)
Definition proxy_live (h : gmap loc impl) (pp : partition_proxy) : bool :=
  match owned h pp with
  | Some _ => true
  | None => false
  end.

(** Modelled from the spec: the destructor of [partition_proxy] comes with
    the class declaration in partition_proxy.h.  Destroying a proxy
    releases the adapter it owns. *)
Definition destroy (pp : partition_proxy) (s : state) : state :=
  match _impl pp with
  | u_nullptr => s
  | u_to l => mk_state (cluster_pm s) (delete l (heap s))
  end.

(** What a caller can tell about a finished call: the exception, an empty
    optional, or the adapter behind the proxy it received. *)
Inductive observation : Type :=
| ObsThrown (e : exception)
| ObsEmpty
| ObsProxy (adapter : option impl).

Definition observe (r : run_result (option partition_proxy)) : observation :=
  match result r with
  | Thrown e => ObsThrown e
  | Returned None => ObsEmpty
  | Returned (Some pp) => ObsProxy (owned (heap (final r)) pp)
  end.

(** [resolve k s] is the call [make_partition_proxy(k, cluster_pm)] made in
    state [s]. *)
Definition resolve (k : ktp) (s : state) : run_result (option partition_proxy) :=
  run (make_partition_proxy k) s.

(** Two calls for the same key, the second made in the state the first
    one left, with both proxies still held by the caller. *)
Definition resolve_twice (k : ktp) (s : state)
  : run_result (option partition_proxy) * run_result (option partition_proxy) :=
  let first := resolve k s in
  (first, resolve k (final first)).

(** [calls_at_most n p]: on every path through [p], whatever the calls
    answer, at most [n] calls are made before [p] returns. *)
Fixpoint calls_at_most {A : Type} (n : nat) (p : prog A) : Prop :=
  match p with
  | Ret _ => True
  | Get _ cont =>
      match n with
      | 0 => False
      | S m => forall r, calls_at_most m (cont r)
      end
  | MakeUnique _ cont =>
      match n with
      | 0 => False
      | S m => forall u, calls_at_most m (cont u)
      end
  end.

(** ** Proxies held by callers *)

(** A held proxy is in order when it owns an allocated adapter whose handle
    tests true. *)
Definition proxy_ok (h : gmap loc impl) (pp : partition_proxy) : bool :=
  match owned h pp with
  | Some a => lw_bool (handle_of a)
  | None => false
  end.

(** The proxies held by callers are well owned when no two of them point to
    the same adapter and each of them is in order. *)
Definition well_owned (h : gmap loc impl) (held : list partition_proxy) : Prop :=
  NoDup (_impl <$> held) /\ Forall (fun pp => proxy_ok h pp = true) held.

(** The proxies held once a call has finished: the caller keeps the proxy of
    an engaged optional. *)
Definition held_after (r : run_result (option partition_proxy))
    (held : list partition_proxy) : list partition_proxy :=
  match result r with
  | Returned (Some pp) => pp :: held
  | Returned None => held
  | Thrown _ => held
  end.

(** What callers do with the factory: they resolve a key and keep the proxy
    they get, or they destroy a proxy they hold. *)
Inductive client_step :
  state * list partition_proxy -> state * list partition_proxy -> Prop :=
| client_resolve (k : ktp) (s : state) (held : list partition_proxy) :
    client_step (s, held)
                (final (resolve k s), held_after (resolve k s) held)
| client_destroy (pp : partition_proxy) (s : state)
    (held : list partition_proxy) :
    pp ∈ held ->
    client_step (s, held)
                (destroy pp s, filter (fun q => q <> pp) held).

End Model.

(** ** An example partition manager

    A table from identifiers to hosted partitions, a count of the lookups
    served, and a switch that makes every lookup fail.  It is the registry of
    the scenarios: it holds partition 3 of topic orders and nothing else. *)
Module Scenario.

(** Namespace, topic and partition index. *)
Definition ktp : Type := string * string * Z.

Record partition_manager : Type := mk_pm {
  table : gmap (string * string * Z) partition_id;
  served : nat;
  broken : bool
}.

Definition exception : Type := string.

Definition get (pm : partition_manager) (k : ktp)
  : (exception + lw_shared_ptr) * partition_manager :=
  let pm' := mk_pm (table pm) (S (served pm)) (broken pm) in
  if broken pm then (inl "internal fault"%string, pm')
  else match table pm !! k with
       | Some p => (inr (lw_to p), pm')
       | None => (inr lw_nullptr, pm')
       end.

Definition orders3 : ktp := ("ns"%string, "orders"%string, 3%Z).
Definition orders4 : ktp := ("ns"%string, "orders"%string, 4%Z).

Definition registry : partition_manager :=
  mk_pm {[ orders3 := 7%positive ]} 0 false.

Definition faulty : partition_manager :=
  mk_pm {[ orders3 := 7%positive ]} 0 true.

Definition start : state := mk_state registry ∅.
Definition start_faulty : state := mk_state faulty ∅.

(** A state in which two adapters are already allocated. *)
Definition busy : state :=
  mk_state registry
    (<[1%positive := replicated_partition (lw_to 5%positive)]>
       (<[2%positive := replicated_partition (lw_to 7%positive)]> ∅)).

(** An allocator with room for three adapters: once three are allocated,
    [make_unique] throws. *)
Definition capacity : nat := 3.

Definition new_fault (s : @state partition_manager) (obj : impl)
  : option exception :=
  if (size (heap s) <? capacity)%nat then None
  else Some "std::bad_alloc"%string.

(** A state in which the allocator has no room left. *)
Definition full : state :=
  mk_state registry
    (<[1%positive := replicated_partition (lw_to 5%positive)]>
       (<[2%positive := replicated_partition (lw_to 7%positive)]>
          (<[3%positive := replicated_partition (lw_to 7%positive)]> ∅))).

End Scenario.

(** ** What a call of [make_partition_proxy] does *)

Section Properties.
Context {ktp partition_manager exception : Type}.
Variable pm_get :
  partition_manager -> ktp -> (exception + lw_shared_ptr) * partition_manager.
Variable new_fault : @state partition_manager -> impl -> option exception.

Local Abbreviation state := (@state partition_manager).
Local Abbreviation resolve := (resolve pm_get new_fault).
Local Abbreviation reply k s := (fst (pm_get (cluster_pm s) k)).
Local Abbreviation after_get := (after_get pm_get).
Local Abbreviation unique_fault k s h :=
  (new_fault (after_get k s) (replicated_partition (lw_to h))).

Implicit Types (k : ktp) (s : state) (h : partition_id) (e : exception)
  (p : lw_shared_ptr) (pp : partition_proxy) (l : loc).

Lemma next_loc_fresh (m : gmap loc impl) : next_loc m ∉ dom m.
Proof. unfold next_loc. apply is_fresh. Qed.

Lemma next_loc_unused (m : gmap loc impl) : m !! next_loc m = None.
Proof. apply not_elem_of_dom, next_loc_fresh. Qed.

(** The whole call, by the answers of the partition manager and of
    [make_unique]. *)
Lemma resolve_thrown k s e :
  reply k s = inl e ->
  resolve k s =
    mk_run (Thrown e) (mk_state (snd (pm_get (cluster_pm s) k)) (heap s))
           [EvGet k].
Proof.
  intros Hr. unfold resolve, make_partition_proxy. simpl.
  rewrite Hr. reflexivity.
Qed.

Lemma resolve_null k s :
  reply k s = inr lw_nullptr ->
  resolve k s =
    mk_run (Returned None)
           (mk_state (snd (pm_get (cluster_pm s) k)) (heap s))
           [EvGet k].
Proof.
  intros Hr. unfold resolve, make_partition_proxy. simpl.
  rewrite Hr. reflexivity.
Qed.

Lemma resolve_handle k s h :
  reply k s = inr (lw_to h) ->
  unique_fault k s h = None ->
  resolve k s =
    mk_run (Returned (Some {| _impl := u_to (next_loc (heap s)) |}))
           (mk_state (snd (pm_get (cluster_pm s) k))
                     (<[next_loc (heap s) := replicated_partition (lw_to h)]> (heap s)))
           [EvGet k; EvNew (next_loc (heap s)) (replicated_partition (lw_to h))].
Proof.
  intros Hr Hf. unfold after_get in Hf.
  unfold resolve, make_partition_proxy. simpl.
  rewrite Hr. simpl. rewrite Hf. reflexivity.
Qed.

Lemma resolve_handle_fault k s h e :
  reply k s = inr (lw_to h) ->
  unique_fault k s h = Some e ->
  resolve k s =
    mk_run (Thrown e) (mk_state (snd (pm_get (cluster_pm s) k)) (heap s))
           [EvGet k; EvNewFailed (replicated_partition (lw_to h))].
Proof.
  intros Hr Hf. unfold after_get in Hf.
  unfold resolve, make_partition_proxy. simpl.
  rewrite Hr. simpl. rewrite Hf. reflexivity.
Qed.

(** The four shapes of a finished call. *)
Lemma resolve_cases k s :
  (exists e, reply k s = inl e
     /\ resolve k s
        = mk_run (Thrown e)
            (mk_state (snd (pm_get (cluster_pm s) k)) (heap s)) [EvGet k])
  \/ (reply k s = inr lw_nullptr
     /\ resolve k s
        = mk_run (Returned None)
            (mk_state (snd (pm_get (cluster_pm s) k)) (heap s)) [EvGet k])
  \/ (exists h e, reply k s = inr (lw_to h)
     /\ unique_fault k s h = Some e
     /\ resolve k s
        = mk_run (Thrown e)
            (mk_state (snd (pm_get (cluster_pm s) k)) (heap s))
            [EvGet k; EvNewFailed (replicated_partition (lw_to h))])
  \/ (exists h, reply k s = inr (lw_to h)
     /\ unique_fault k s h = None
     /\ resolve k s
        = mk_run (Returned (Some {| _impl := u_to (next_loc (heap s)) |}))
            (mk_state (snd (pm_get (cluster_pm s) k))
               (<[next_loc (heap s) := replicated_partition (lw_to h)]> (heap s)))
            [EvGet k; EvNew (next_loc (heap s)) (replicated_partition (lw_to h))]).
Proof.
  destruct (reply k s) as [e | [ | h]] eqn:Hr.
  - left. exists e. split; [reflexivity | apply resolve_thrown, Hr].
  - right; left. split; [reflexivity | apply resolve_null, Hr].
  - destruct (unique_fault k s h) as [e | ] eqn:Hf.
    + right; right; left. exists h, e.
      split; [reflexivity | split; [exact Hf | ]].
      apply resolve_handle_fault; assumption.
    + right; right; right. exists h.
      split; [reflexivity | split; [exact Hf | ]].
      apply resolve_handle; assumption.
Qed.

(** A call that returns a proxy was answered with a handle, and its
    [make_unique] did not throw. *)
Lemma resolve_some_inv k s pp :
  result (resolve k s) = Returned (Some pp) ->
  exists h, reply k s = inr (lw_to h) /\ unique_fault k s h = None.
Proof.
  intros Hres.
  destruct (resolve_cases k s)
    as [(e & _ & Heq) | [(_ & Heq) | [(h & e & _ & _ & Heq) | (h & Hr & Hf & _)]]];
    try (rewrite Heq in Hres; discriminate).
  exists h. split; assumption.
Qed.

Ltac by_cases k s :=
  let Heq := fresh "Heq" in
  destruct (resolve_cases k s)
    as [(? & ? & Heq) | [(? & Heq) | [(? & ? & ? & ? & Heq) | (? & ? & ? & Heq)]]];
  rewrite Heq; simpl.


(** The partition manager is asked once, for the key the caller gave. *)
Lemma gets_resolve k s : gets (trace (resolve k s)) = [k].
Proof. by_cases k s; reflexivity. Qed.

(** Objects already on the heap stay as they are. *)
Lemma heap_resolve_mono k s : heap s ⊆ heap (final (resolve k s)).
Proof.
  by_cases k s; try reflexivity.
  apply insert_subseteq, next_loc_unused.
Qed.

(** The manager changes as its own [get] changes it, and no further. *)
Lemma cluster_pm_resolve k s :
  cluster_pm (final (resolve k s)) = snd (pm_get (cluster_pm s) k).
Proof. by_cases k s; reflexivity. Qed.

(** ** The claims *)

(** C1, amended. When the partition manager answers with a handle and
    [make_unique] does not throw, the call returns an engaged optional.  The
    proxy in it points to an adapter at an address that was not allocated
    before the call, so no proxy that was live before can own it; that
    adapter is a [replicated_partition] holding the very handle the manager
    returned; and it is the only object the call allocated. *)
Theorem resolve_found_owns_new_adapter k s h :
  reply k s = inr (lw_to h) ->
  unique_fault k s h = None ->
  exists l,
    result (resolve k s) = Returned (Some {| _impl := u_to l |})
    /\ (l ∉ dom (heap s))
    /\ (forall pp', proxy_live (heap s) pp' = true -> _impl pp' <> u_to l)
    /\ heap (final (resolve k s)) !! l = Some (replicated_partition (lw_to h))
    /\ allocations (trace (resolve k s)) = [(l, replicated_partition (lw_to h))]
    /\ dom (heap (final (resolve k s))) = {[ l ]} ∪ dom (heap s).
Proof.
  intros Hr Hf. exists (next_loc (heap s)).
  rewrite (resolve_handle _ _ _ Hr Hf). simpl.
  repeat split.
  - apply next_loc_fresh.
  - intros pp' Hlive Hptr. unfold proxy_live, owned in Hlive.
    rewrite Hptr, next_loc_unused in Hlive. discriminate.
  - apply lookup_insert_eq.
  - apply dom_insert_L.
Qed.

(** C2. When the partition manager reports no partition (it returns a null
    pointer), the call returns normally with an empty optional: no
    exception, no proxy, and nothing was allocated. *)
Theorem resolve_unknown_is_empty k s :
  reply k s = inr lw_nullptr ->
  result (resolve k s) = Returned None
  /\ allocations (trace (resolve k s)) = []
  /\ heap (final (resolve k s)) = heap s.
Proof.
  intros Hr. rewrite (resolve_null _ _ Hr). simpl. repeat split.
Qed.

(** C3. When the lookup throws, the call ends with that same exception; it
    does not return, so in particular it does not return an empty
    optional, and it allocates nothing. *)
Theorem resolve_propagates_fault k s e :
  reply k s = inl e ->
  result (resolve k s) = Thrown e
  /\ result (resolve k s) <> Returned None
  /\ observe (resolve k s) = ObsThrown e
  /\ allocations (trace (resolve k s)) = [].
Proof.
  intros Hr. rewrite (resolve_thrown _ _ _ Hr). unfold observe. simpl.
  repeat split. discriminate.
Qed.

(** C4. Every proxy the call returns has a non-null pointer to an adapter
    that is allocated in the state the call leaves, and it exists only
    because the manager answered with a non-null handle, the one that
    adapter holds.  Hence absence is never a proxy: it is the empty
    optional. *)
Theorem returned_proxy_is_live k s pp :
  result (resolve k s) = Returned (Some pp) ->
  _impl pp <> u_nullptr
  /\ proxy_live (heap (final (resolve k s))) pp = true
  /\ exists l a,
       _impl pp = u_to l
       /\ heap (final (resolve k s)) !! l = Some a
       /\ reply k s = inr (handle_of a)
       /\ lw_bool (handle_of a) = true.
Proof.
  intros Hres. destruct (resolve_some_inv _ _ _ Hres) as (h & Hr & Hf).
  rewrite (resolve_handle _ _ _ Hr Hf) in Hres |- *. simpl in *.
  injection Hres as <-. unfold proxy_live, owned. simpl.
  rewrite lookup_insert_eq. split; [discriminate | split; [reflexivity | ]].
  exists (next_loc (heap s)), (replicated_partition (lw_to h)).
  repeat split; [apply lookup_insert_eq | exact Hr].
Qed.

(** C5. A call that returns a proxy constructed exactly one adapter, and
    that adapter is a [replicated_partition] over the handle the manager
    returned: the adapter is determined by the handle alone. *)
Theorem resolve_constructs_replicated_partition k s pp :
  result (resolve k s) = Returned (Some pp) ->
  exists l h,
    reply k s = inr (lw_to h)
    /\ _impl pp = u_to l
    /\ allocations (trace (resolve k s)) = [(l, replicated_partition (lw_to h))]
    /\ owned (heap (final (resolve k s))) pp = Some (replicated_partition (lw_to h)).
Proof.
  intros Hres. destruct (resolve_some_inv _ _ _ Hres) as (h & Hr & Hf).
  exists (next_loc (heap s)), h.
  rewrite (resolve_handle _ _ _ Hr Hf) in Hres |- *. simpl in *.
  injection Hres as <-. unfold owned. simpl.
  rewrite lookup_insert_eq. repeat split. exact Hr.
Qed.


(** C7, amended. Two calls in a row for the same key, both answered with
    the same handle and neither stopped by [make_unique] throwing, return
    two proxies whose adapters sit at different addresses, each of them new
    when it was allocated.  Both adapters are live at the end, and
    destroying either proxy releases its own adapter and leaves the adapter
    of the other in place, still holding the handle. *)
Theorem resolve_twice_independent k s h :
  reply k s = inr (lw_to h) ->
  reply k (final (resolve k s)) = inr (lw_to h) ->
  unique_fault k s h = None ->
  unique_fault k (final (resolve k s)) h = None ->
  exists pp1 pp2 l1 l2,
    result (fst (resolve_twice pm_get new_fault k s)) = Returned (Some pp1)
    /\ result (snd (resolve_twice pm_get new_fault k s)) = Returned (Some pp2)
    /\ _impl pp1 = u_to l1 /\ _impl pp2 = u_to l2 /\ l1 <> l2
    /\ (l1 ∉ dom (heap s))
    /\ (l2 ∉ dom (heap (final (fst (resolve_twice pm_get new_fault k s)))))
    /\ owned (heap (final (snd (resolve_twice pm_get new_fault k s)))) pp1
         = Some (replicated_partition (lw_to h))
    /\ owned (heap (final (snd (resolve_twice pm_get new_fault k s)))) pp2
         = Some (replicated_partition (lw_to h))
    /\ owned (heap (destroy pp1 (final (snd (resolve_twice pm_get new_fault k s))))) pp2
         = Some (replicated_partition (lw_to h))
    /\ owned (heap (destroy pp2 (final (snd (resolve_twice pm_get new_fault k s))))) pp1
         = Some (replicated_partition (lw_to h))
    /\ owned (heap (destroy pp1 (final (snd (resolve_twice pm_get new_fault k s))))) pp1
         = None
    /\ owned (heap (destroy pp2 (final (snd (resolve_twice pm_get new_fault k s))))) pp2
         = None.
Proof.
  intros Hr1 Hr2 Hf1 Hf2. unfold resolve_twice. simpl.
  rewrite (resolve_handle _ _ _ Hr2 Hf2).
  rewrite (resolve_handle _ _ _ Hr1 Hf1) in *. simpl in *.
  set (a := replicated_partition (lw_to h)).
  set (l1 := next_loc (heap s)).
  set (m1 := <[l1 := a]> (heap s)).
  set (l2 := next_loc m1).
  assert (Hl2 : l2 ∉ dom m1) by apply next_loc_fresh.
  assert (Hne : l1 <> l2).
  { intros Heq. apply Hl2. rewrite <- Heq. subst m1.
    rewrite dom_insert_L. set_solver. }
  exists {| _impl := u_to l1 |}, {| _impl := u_to l2 |}, l1, l2.
  unfold owned, destroy. simpl.
  repeat split; try assumption.
  - apply next_loc_fresh.
  - rewrite lookup_insert_ne by congruence. apply lookup_insert_eq.
  - apply lookup_insert_eq.
  - rewrite lookup_delete_ne by congruence. apply lookup_insert_eq.
  - rewrite lookup_delete_ne by congruence.
    rewrite lookup_insert_ne by congruence. apply lookup_insert_eq.
  - apply lookup_delete_eq.
  - apply lookup_delete_eq.
Qed.

(** C8. Whatever the key is, the call asks the partition manager exactly
    once, as its first step, for exactly the key it was given, in the
    state of the manager the caller passed. *)
Theorem resolve_forwards_identifier k s :
  gets (trace (resolve k s)) = [k]
  /\ head (trace (resolve k s)) = Some (EvGet k)
  /\ cluster_pm (final (resolve k s)) = snd (pm_get (cluster_pm s) k).
Proof.
  split; [apply gets_resolve | split; [ | apply cluster_pm_resolve]].
  by_cases k s; reflexivity.
Qed.

(** C9, amended. The function makes at most two calls on any path,
    whatever they answer.  Once the lookup has replied with a pointer, the
    call ends after one lookup and at most one call of [make_unique], and
    the lookup is not repeated: it returns (a proxy or an empty optional),
    or, when the pointer tests true and [make_unique] throws, it ends with
    the exception [make_unique] threw. *)
Theorem resolve_completes_in_one_pass k s p :
  reply k s = inr p ->
  calls_at_most 2 (make_partition_proxy k)
  /\ ((exists r, result (resolve k s) = Returned r)
      \/ (exists h e, p = lw_to h
                      /\ unique_fault k s h = Some e
                      /\ result (resolve k s) = Thrown e))
  /\ (lw_bool p = false \/ (exists h, p = lw_to h /\ unique_fault k s h = None) ->
      exists r, result (resolve k s) = Returned r)
  /\ length (trace (resolve k s)) <= 2
  /\ gets (trace (resolve k s)) = [k].
Proof.
  intros Hr. split; [ | split; [ | split; [ | split]]].
  - simpl. intros [ | h']; simpl; [exact I | intros u; exact I].
  - destruct p as [ | h'].
    + left. rewrite (resolve_null _ _ Hr). eexists. reflexivity.
    + destruct (unique_fault k s h') as [e | ] eqn:Hf.
      * right. exists h', e. rewrite (resolve_handle_fault _ _ _ _ Hr Hf).
        repeat split. exact Hf.
      * left. rewrite (resolve_handle _ _ _ Hr Hf). eexists. reflexivity.
  - intros [Hnull | (h' & -> & Hf)].
    + destruct p as [ | h']; [ | discriminate].
      rewrite (resolve_null _ _ Hr). eexists. reflexivity.
    + rewrite (resolve_handle _ _ _ Hr Hf). eexists. reflexivity.
  - by_cases k s; lia.
  - apply gets_resolve.
Qed.

(** C10, amended. When the lookup returns a pointer, the returned optional
    is engaged exactly when that pointer tests true and [make_unique] does
    not throw.  A null pointer gives the empty optional and no allocation,
    and every adapter the call constructs holds a pointer that tests
    true. *)
Theorem resolve_engaged_iff_nonnull k s p :
  reply k s = inr p ->
  ((exists pp, result (resolve k s) = Returned (Some pp))
   <-> lw_bool p = true
       /\ new_fault (after_get k s) (replicated_partition p) = None)
  /\ (lw_bool p = false ->
        result (resolve k s) = Returned None
        /\ allocations (trace (resolve k s)) = []
        /\ heap (final (resolve k s)) = heap s)
  /\ (forall l a, (l, a) ∈ allocations (trace (resolve k s)) ->
        lw_bool (handle_of a) = true).
Proof.
  intros Hr. destruct p as [ | h'].
  - rewrite (resolve_null _ _ Hr). simpl. split; [ | split].
    + split; [intros [pp Hpp]; discriminate | intros [Hb _]; discriminate].
    + intros _. repeat split.
    + intros l a Hin. inversion Hin.
  - destruct (unique_fault k s h') as [e | ] eqn:Hf.
    + rewrite (resolve_handle_fault _ _ _ _ Hr Hf). simpl. split; [ | split].
      * split; [intros [pp Hpp]; discriminate | intros [_ Hn]; discriminate].
      * discriminate.
      * intros l a Hin. inversion Hin.
    + rewrite (resolve_handle _ _ _ Hr Hf). simpl. split; [ | split].
      * split; [intros _; split; reflexivity | intros _; eexists; reflexivity].
      * discriminate.
      * intros l a Hin. apply list_elem_of_singleton in Hin.
        injection Hin as -> ->. reflexivity.
Qed.

End Properties.

(** ** The scenarios, on the example partition manager *)

Section Scenarios.
Import Scenario.

Local Abbreviation resolve := (resolve get new_fault).
Local Abbreviation reply k s := (fst (get (cluster_pm s) k)).
Local Abbreviation after_get := (after_get get).
Local Abbreviation rp7 := (replicated_partition (lw_to 7%positive)).
Local Abbreviation bad_alloc := ("std::bad_alloc"%string).

(** Partition 3 of orders is hosted: with two adapters already allocated,
    the proxy gets a third one, around handle 7. *)
Lemma resolve_found_owns_new_adapter_orders3 :
  reply orders3 busy = inr (lw_to 7%positive)
  /\ new_fault (after_get orders3 busy) rp7 = None
  /\ exists l,
       result (resolve orders3 busy) = Returned (Some {| _impl := u_to l |})
       /\ (l ∉ dom (heap busy))
       /\ (forall pp', proxy_live (heap busy) pp' = true -> _impl pp' <> u_to l)
       /\ heap (final (resolve orders3 busy)) !! l = Some rp7
       /\ allocations (trace (resolve orders3 busy)) = [(l, rp7)]
       /\ dom (heap (final (resolve orders3 busy))) = {[ l ]} ∪ dom (heap busy).
Proof.
  split; [reflexivity | split; [reflexivity | ]].
  apply (resolve_found_owns_new_adapter get new_fault orders3 busy 7%positive);
    reflexivity.
Defined.

(** Partition 3 of orders is hosted, the manager answers with handle 7, and
    yet the call returns no proxy: the allocator has no room left and
    [make_unique] throws. *)
Lemma resolve_found_may_throw :
  reply orders3 full = inr (lw_to 7%positive)
  /\ result (resolve orders3 full) = Thrown bad_alloc
  /\ ~ (exists l,
          result (resolve orders3 full) = Returned (Some {| _impl := u_to l |})).
Proof.
  split; [reflexivity | split; [reflexivity | ]].
  intros [l Hl]. vm_compute in Hl. discriminate.
Qed.

(** Partition 4 of orders is not hosted. *)
Lemma resolve_unknown_is_empty_orders4 :
  reply orders4 start = inr lw_nullptr
  /\ result (resolve orders4 start) = Returned None
  /\ allocations (trace (resolve orders4 start)) = []
  /\ heap (final (resolve orders4 start)) = heap start.
Proof.
  split; [reflexivity | ].
  apply (resolve_unknown_is_empty get new_fault orders4 start).
  reflexivity.
Defined.

(** The manager fails during the lookup of partition 3 of orders. *)
Lemma resolve_propagates_fault_orders3 :
  reply orders3 start_faulty = inl "internal fault"%string
  /\ result (resolve orders3 start_faulty) = Thrown "internal fault"%string
  /\ result (resolve orders3 start_faulty) <> Returned None
  /\ observe (resolve orders3 start_faulty) = ObsThrown "internal fault"%string
  /\ allocations (trace (resolve orders3 start_faulty)) = [].
Proof.
  split; [reflexivity | ].
  apply (resolve_propagates_fault get new_fault orders3 start_faulty).
  reflexivity.
Defined.

(** The proxy returned for partition 3 of orders is live. *)
Lemma returned_proxy_is_live_orders3 :
  result (resolve orders3 busy) = Returned (Some {| _impl := u_to 3%positive |})
  /\ _impl {| _impl := u_to 3%positive |} <> u_nullptr
  /\ proxy_live (heap (final (resolve orders3 busy)))
       {| _impl := u_to 3%positive |} = true
  /\ exists l a,
       _impl {| _impl := u_to 3%positive |} = u_to l
       /\ heap (final (resolve orders3 busy)) !! l = Some a
       /\ reply orders3 busy = inr (handle_of a)
       /\ lw_bool (handle_of a) = true.
Proof.
  split; [reflexivity | ].
  apply (returned_proxy_is_live get new_fault orders3 busy).
  reflexivity.
Defined.

(** The adapter built for partition 3 of orders is a replicated partition. *)
Lemma resolve_constructs_replicated_partition_orders3 :
  result (resolve orders3 start) = Returned (Some {| _impl := u_to 1%positive |})
  /\ exists l h,
       reply orders3 start = inr (lw_to h)
       /\ _impl {| _impl := u_to 1%positive |} = u_to l
       /\ allocations (trace (resolve orders3 start))
            = [(l, replicated_partition (lw_to h))]
       /\ owned (heap (final (resolve orders3 start)))
            {| _impl := u_to 1%positive |}
            = Some (replicated_partition (lw_to h)).
Proof.
  split; [reflexivity | ].
  apply (resolve_constructs_replicated_partition get new_fault orders3 start).
  reflexivity.
Defined.



(** Partition 3 of orders resolved twice in a row. *)
Lemma resolve_twice_independent_orders3 :
  reply orders3 start = inr (lw_to 7%positive)
  /\ reply orders3 (final (resolve orders3 start)) = inr (lw_to 7%positive)
  /\ new_fault (after_get orders3 start) rp7 = None
  /\ new_fault (after_get orders3 (final (resolve orders3 start))) rp7 = None
  /\ exists pp1 pp2 l1 l2,
       result (fst (resolve_twice get new_fault orders3 start)) = Returned (Some pp1)
       /\ result (snd (resolve_twice get new_fault orders3 start)) = Returned (Some pp2)
       /\ _impl pp1 = u_to l1 /\ _impl pp2 = u_to l2 /\ l1 <> l2
       /\ (l1 ∉ dom (heap start))
       /\ (l2 ∉ dom (heap (final (fst (resolve_twice get new_fault orders3 start)))))
       /\ owned (heap (final (snd (resolve_twice get new_fault orders3 start)))) pp1
            = Some rp7
       /\ owned (heap (final (snd (resolve_twice get new_fault orders3 start)))) pp2
            = Some rp7
       /\ owned (heap (destroy pp1 (final (snd (resolve_twice get new_fault orders3 start))))) pp2
            = Some rp7
       /\ owned (heap (destroy pp2 (final (snd (resolve_twice get new_fault orders3 start))))) pp1
            = Some rp7
       /\ owned (heap (destroy pp1 (final (snd (resolve_twice get new_fault orders3 start))))) pp1
            = None
       /\ owned (heap (destroy pp2 (final (snd (resolve_twice get new_fault orders3 start))))) pp2
            = None.
Proof.
  split; [reflexivity | split; [reflexivity | ]].
  split; [reflexivity | split; [reflexivity | ]].
  apply (resolve_twice_independent get new_fault orders3 start 7%positive);
    reflexivity.
Defined.

(** With two adapters allocated and room for three, partition 3 of orders
    is resolved twice in a row and the manager answers with handle 7 both
    times: the first call returns a proxy, the second ends with the
    allocator's exception and returns none. *)
Lemma second_resolve_may_throw :
  reply orders3 busy = inr (lw_to 7%positive)
  /\ reply orders3 (final (resolve orders3 busy)) = inr (lw_to 7%positive)
  /\ result (fst (resolve_twice get new_fault orders3 busy))
       = Returned (Some {| _impl := u_to 3%positive |})
  /\ result (snd (resolve_twice get new_fault orders3 busy)) = Thrown bad_alloc
  /\ ~ (exists pp2,
          result (snd (resolve_twice get new_fault orders3 busy))
          = Returned (Some pp2)).
Proof.
  split; [reflexivity | split; [reflexivity | ]].
  split; [reflexivity | split; [reflexivity | ]].
  intros [pp2 Hpp2]. vm_compute in Hpp2. discriminate.
Qed.

(** The lookup of partition 3 of orders replies with a handle, and the call
    returns after the one allocation. *)
Lemma resolve_completes_in_one_pass_orders3 :
  reply orders3 busy = inr (lw_to 7%positive)
  /\ calls_at_most 2 (make_partition_proxy orders3)
  /\ ((exists r, result (resolve orders3 busy) = Returned r)
      \/ (exists h e, lw_to 7%positive = lw_to h
                      /\ new_fault (after_get orders3 busy)
                           (replicated_partition (lw_to h)) = Some e
                      /\ result (resolve orders3 busy) = Thrown e))
  /\ (lw_bool (lw_to 7%positive) = false
      \/ (exists h, lw_to 7%positive = lw_to h
                    /\ new_fault (after_get orders3 busy)
                         (replicated_partition (lw_to h)) = None) ->
      exists r, result (resolve orders3 busy) = Returned r)
  /\ length (trace (resolve orders3 busy)) <= 2
  /\ gets (trace (resolve orders3 busy)) = [orders3].
Proof.
  split; [reflexivity | ].
  apply (resolve_completes_in_one_pass get new_fault orders3 busy
           (lw_to 7%positive)).
  reflexivity.
Defined.

(** The lookup of partition 3 of orders replies with a handle, and the call
    does not complete with a result: it ends with the allocator's
    exception. *)
Lemma resolve_may_end_by_exception :
  reply orders3 full = inr (lw_to 7%positive)
  /\ ~ (exists r, result (resolve orders3 full) = Returned r).
Proof.
  split; [reflexivity | ].
  intros [r Hr]. vm_compute in Hr. discriminate.
Qed.

(** A handle for partition 3 of orders, and room to allocate: engaged. *)
Lemma resolve_engaged_iff_nonnull_orders3 :
  reply orders3 busy = inr (lw_to 7%positive)
  /\ ((exists pp, result (resolve orders3 busy) = Returned (Some pp))
      <-> lw_bool (lw_to 7%positive) = true
          /\ new_fault (after_get orders3 busy) rp7 = None)
  /\ (lw_bool (lw_to 7%positive) = false ->
        result (resolve orders3 busy) = Returned None
        /\ allocations (trace (resolve orders3 busy)) = []
        /\ heap (final (resolve orders3 busy)) = heap busy)
  /\ (forall l a, (l, a) ∈ allocations (trace (resolve orders3 busy)) ->
        lw_bool (handle_of a) = true).
Proof.
  split; [reflexivity | ].
  apply (resolve_engaged_iff_nonnull get new_fault orders3 busy
           (lw_to 7%positive)).
  reflexivity.
Defined.

(** The pointer returned for partition 3 of orders tests true, and the
    returned optional is not engaged: [make_unique] threw. *)
Lemma nonnull_handle_not_engaged :
  reply orders3 full = inr (lw_to 7%positive)
  /\ lw_bool (lw_to 7%positive) = true
  /\ ~ (exists pp, result (resolve orders3 full) = Returned (Some pp)).
Proof.
  split; [reflexivity | split; [reflexivity | ]].
  intros [pp Hpp]. vm_compute in Hpp. discriminate.
Qed.

End Scenarios.


(** ** Beyond single calls: [make_with_impl] on its own, what an outcome
    tells about the lookup, and the proxies callers hold *)

Section Ownership.
Context {ktp partition_manager exception : Type}.
Variable pm_get :
  partition_manager -> ktp -> (exception + lw_shared_ptr) * partition_manager.
Variable new_fault : @state partition_manager -> impl -> option exception.

Local Abbreviation state := (@state partition_manager).
Local Abbreviation resolve := (resolve pm_get new_fault).
Local Abbreviation reply k s := (fst (pm_get (cluster_pm s) k)).
Local Abbreviation after_get := (after_get pm_get).
Local Abbreviation unique_fault k s h :=
  (new_fault (after_get k s) (replicated_partition (lw_to h))).
Local Abbreviation resolve_cases := (resolve_cases pm_get new_fault).

Implicit Types (k : ktp) (s : state) (h : partition_id) (e : exception)
  (pp : partition_proxy) (l : loc) (m : gmap loc impl)
  (held : list partition_proxy).

(** A proxy that is in order points to an allocated address. *)
Lemma proxy_ok_allocated m pp :
  proxy_ok m pp = true ->
  exists l a, _impl pp = u_to l /\ m !! l = Some a /\ lw_bool (handle_of a) = true.
Proof.
  unfold proxy_ok, owned. destruct pp as [[ | l]]; simpl; [discriminate | ].
  destruct (m !! l) as [a | ] eqn:Hl; [ | discriminate].
  intros Ha. exists l, a. repeat split; assumption.
Qed.

(** Allocating at an unused address keeps every proxy that is in order. *)
Lemma proxy_ok_insert m l a pp :
  m !! l = None -> proxy_ok m pp = true -> proxy_ok (<[l := a]> m) pp = true.
Proof.
  intros Hfree Hok.
  destruct (proxy_ok_allocated _ _ Hok) as (l' & a' & Hptr & Hl' & Ha').
  unfold proxy_ok, owned. rewrite Hptr.
  rewrite lookup_insert_ne by congruence. rewrite Hl'. exact Ha'.
Qed.

(** Releasing another address keeps a proxy that is in order. *)
Lemma proxy_ok_delete m l pp :
  _impl pp <> u_to l -> proxy_ok m pp = true -> proxy_ok (delete l m) pp = true.
Proof.
  intros Hne Hok.
  destruct (proxy_ok_allocated _ _ Hok) as (l' & a' & Hptr & Hl' & Ha').
  unfold proxy_ok, owned. rewrite Hptr.
  rewrite lookup_delete_ne by congruence. rewrite Hl'. exact Ha'.
Qed.

(** No proxy that is in order points to the address allocated next. *)
Lemma held_not_next m held :
  Forall (fun pp => proxy_ok m pp = true) held ->
  u_to (next_loc m) ∉ _impl <$> held.
Proof.
  intros Hall Hin. apply list_elem_of_fmap in Hin as (pp & Hptr & Hpp).
  rewrite Forall_forall in Hall. specialize (Hall pp Hpp).
  destruct (proxy_ok_allocated _ _ Hall) as (l' & a' & Hptr' & Hl' & _).
  assert (Hl : m !! next_loc m = Some a') by congruence.
  rewrite next_loc_unused in Hl. discriminate.
Qed.

(** One call keeps the held proxies well owned. *)
Lemma well_owned_resolve k s held :
  well_owned (heap s) held ->
  well_owned (heap (final (resolve k s))) (held_after (resolve k s) held).
Proof.
  intros [Hnd Hall]. unfold held_after.
  destruct (resolve_cases k s)
    as [(e & _ & ->) | [(_ & ->) | [(h & e & _ & _ & ->) | (h & _ & _ & ->)]]];
    simpl.
  - split; assumption.
  - split; assumption.
  - split; assumption.
  - split.
    + rewrite fmap_cons. apply NoDup_cons. split; [ | exact Hnd].
      apply held_not_next, Hall.
    + apply Forall_cons. split.
      * unfold proxy_ok, owned. simpl. rewrite lookup_insert_eq. reflexivity.
      * eapply Forall_impl; [exact Hall | ].
        intros pp Hok. apply proxy_ok_insert; [apply next_loc_unused | exact Hok].
Qed.

(** Destroying a held proxy keeps the others well owned. *)
Lemma well_owned_destroy pp s held :
  well_owned (heap s) held ->
  well_owned (heap (destroy pp s)) (filter (fun q => q <> pp) held).
Proof.
  intros [Hnd Hall]. split.
  - apply (NoDup_fmap_2_strong _impl).
    + intros [u1] [u2] _ _ Heq. simpl in Heq. congruence.
    + apply NoDup_filter. eapply NoDup_fmap_1, Hnd.
  - apply Forall_forall. intros q Hq.
    apply list_elem_of_filter in Hq as [Hne Hq].
    rewrite Forall_forall in Hall. specialize (Hall q Hq).
    unfold destroy. destruct (_impl pp) as [ | l] eqn:Hptr; [exact Hall | ].
    simpl. apply proxy_ok_delete; [ | exact Hall].
    intros Heq. apply Hne. destruct q as [uq], pp as [up].
    simpl in *. congruence.
Qed.

(** ** Further properties *)

(** X1. [make_with_impl] on its own, for any arguments and any way of
    building the adapter from them (a null pointer included: it checks
    nothing).  When [make_unique] does not throw, it returns a proxy that
    points to an address that was not in use, where the object built from
    exactly those arguments now sits.  It allocates that one object, leaves
    every other object and the partition manager as they were, and makes no
    lookup. *)
Theorem make_with_impl_wraps_new_object {Args : Type}
    (Impl : Args -> impl) (args : Args) s :
  new_fault s (Impl args) = None ->
  exists l,
    result (run pm_get new_fault (make_with_impl Impl args) s)
      = Returned {| _impl := u_to l |}
    /\ (l ∉ dom (heap s))
    /\ heap (final (run pm_get new_fault (make_with_impl Impl args) s))
         = <[l := Impl args]> (heap s)
    /\ (forall l', l' <> l ->
          heap (final (run pm_get new_fault (make_with_impl Impl args) s)) !! l'
          = heap s !! l')
    /\ cluster_pm (final (run pm_get new_fault (make_with_impl Impl args) s))
         = cluster_pm s
    /\ gets (trace (run pm_get new_fault (make_with_impl Impl args) s)) = []
    /\ allocations (trace (run pm_get new_fault (make_with_impl Impl args) s))
         = [(l, Impl args)].
Proof.
  intros Hf. exists (next_loc (heap s)). simpl. rewrite Hf. simpl.
  repeat split.
  - apply next_loc_fresh.
  - intros l' Hne. apply lookup_insert_ne. congruence.
Qed.

(** X2. The function raises nothing of its own: whenever a call ends with
    an exception, either the lookup threw it, or the lookup returned a
    handle and [make_unique] threw it. *)
Theorem resolve_throws_only_callee_faults k s e :
  result (resolve k s) = Thrown e ->
  reply k s = inl e
  \/ exists h, reply k s = inr (lw_to h) /\ unique_fault k s h = Some e.
Proof.
  intros Hres.
  destruct (resolve_cases k s)
    as [(e' & Hr & Heq) | [(_ & Heq)
        | [(h & e' & Hr & Hf & Heq) | (h & _ & _ & Heq)]]];
    rewrite Heq in Hres; simpl in Hres.
  - left. rewrite Hr. congruence.
  - discriminate.
  - right. exists h. split; [exact Hr | ]. rewrite Hf. congruence.
  - discriminate.
Qed.

(** X3. The function drops no partition: whenever a call returns the empty
    optional, the lookup returned a null pointer; it neither threw nor
    returned a handle. *)
Theorem resolve_empty_only_when_absent k s :
  result (resolve k s) = Returned None ->
  reply k s = inr lw_nullptr.
Proof.
  intros Hres.
  destruct (resolve_cases k s)
    as [(e' & _ & Heq) | [(Hr & _)
        | [(h & e' & _ & _ & Heq) | (h & _ & _ & Heq)]]].
  - rewrite Heq in Hres. discriminate.
  - exact Hr.
  - rewrite Heq in Hres. discriminate.
  - rewrite Heq in Hres. discriminate.
Qed.

(** X4. A call keeps the proxies that callers hold well owned.  If no two
    held proxies share an adapter and each owns an allocated adapter with a
    handle that tests true, the same is true after the call of the held
    proxies together with the one the call returned, and that one is not a
    proxy already held. *)
Theorem resolve_preserves_ownership k s held :
  well_owned (heap s) held ->
  well_owned (heap (final (resolve k s))) (held_after (resolve k s) held)
  /\ (forall pp, result (resolve k s) = Returned (Some pp) -> pp ∉ held).
Proof.
  intros Hwo. split; [apply well_owned_resolve, Hwo | ].
  intros pp Hres Hin. destruct Hwo as [_ Hall].
  destruct (resolve_cases k s)
    as [(e' & _ & Heq) | [(_ & Heq)
        | [(h & e' & _ & _ & Heq) | (h & _ & _ & Heq)]]];
    rewrite Heq in Hres; simpl in Hres; try discriminate.
  injection Hres as <-.
  apply (held_not_next _ _ Hall).
  apply list_elem_of_fmap. eexists. split; [ | exact Hin]. reflexivity.
Qed.

(** X5. A call does not touch the adapter of a proxy that is live when the
    call is made: afterwards the proxy owns the same adapter, holding the
    same handle, whatever the call returned. *)
Theorem resolve_keeps_live_proxy k s pp :
  proxy_live (heap s) pp = true ->
  owned (heap (final (resolve k s))) pp = owned (heap s) pp
  /\ proxy_live (heap (final (resolve k s))) pp = true.
Proof.
  intros Hlive.
  assert (Heq : owned (heap (final (resolve k s))) pp = owned (heap s) pp).
  { unfold proxy_live, owned in *.
    destruct (_impl pp) as [ | l]; [reflexivity | ].
    destruct (heap s !! l) as [a | ] eqn:Hl; [ | discriminate].
    apply (lookup_weaken _ _ _ _ Hl), heap_resolve_mono. }
  split; [exact Heq | ]. unfold proxy_live in *. rewrite Heq. exact Hlive.
Qed.

(** X6. However callers interleave calls of the function with destroying
    proxies they hold, the proxies they hold stay well owned: pairwise
    distinct adapters, each allocated, each holding a handle that tests
    true.  The destructor is the one modelled above. *)
Theorem held_proxies_stay_well_owned s held s' held' :
  rtc (client_step pm_get new_fault) (s, held) (s', held') ->
  well_owned (heap s) held ->
  well_owned (heap s') held'.
Proof.
  intros Hsteps.
  remember (s, held) as c eqn:Hc. remember (s', held') as c' eqn:Hc'.
  revert s held Hc s' held' Hc'.
  induction Hsteps as [c | c1 c2 c3 Hstep _ IH];
    intros s held -> s' held' Hc' Hwo.
  - injection Hc' as <- <-. exact Hwo.
  - destruct c2 as [s2 held2]. apply (IH s2 held2 eq_refl s' held' Hc').
    inversion Hstep; subst.
    + apply well_owned_resolve, Hwo.
    + apply well_owned_destroy, Hwo.
Qed.

(** X7. Resolving and then destroying the returned proxy leaves no adapter
    behind: the heap is again what it was before the call.  The destructor
    is the one modelled above. *)
Theorem resolve_then_destroy_restores_heap k s pp :
  result (resolve k s) = Returned (Some pp) ->
  heap (destroy pp (final (resolve k s))) = heap s.
Proof.
  intros Hres.
  destruct (resolve_cases k s)
    as [(e' & _ & Heq) | [(_ & Heq)
        | [(h & e' & _ & _ & Heq) | (h & _ & _ & Heq)]]];
    rewrite Heq in Hres |- *; simpl in *; try discriminate.
  injection Hres as <-. unfold destroy. simpl.
  apply delete_insert_id, next_loc_unused.
Qed.

(** X8. When the lookup returns a handle and [make_unique] throws, the call
    ends with the exception [make_unique] threw.  It returns nothing, not
    even an empty optional; nothing is allocated, so the heap is what it
    was; and the manager is as its lookup left it. *)
Theorem resolve_propagates_allocation_fault k s h e :
  reply k s = inr (lw_to h) ->
  unique_fault k s h = Some e ->
  result (resolve k s) = Thrown e
  /\ result (resolve k s) <> Returned None
  /\ allocations (trace (resolve k s)) = []
  /\ heap (final (resolve k s)) = heap s
  /\ cluster_pm (final (resolve k s)) = snd (pm_get (cluster_pm s) k).
Proof.
  intros Hr Hf. rewrite (resolve_handle_fault _ _ _ _ _ _ Hr Hf). simpl.
  repeat split. discriminate.
Qed.

End Ownership.

(** ** The further properties on the example partition manager *)

Section OwnershipScenarios.
Import Scenario.

Local Abbreviation resolve := (resolve get new_fault).
Local Abbreviation reply k s := (fst (get (cluster_pm s) k)).
Local Abbreviation after_get := (after_get get).
Local Abbreviation rp7 := (replicated_partition (lw_to 7%positive)).
Local Abbreviation pp1 := {| _impl := u_to 1%positive |}.
Local Abbreviation pp2 := {| _impl := u_to 2%positive |}.
Local Abbreviation pp3 := {| _impl := u_to 3%positive |}.

(** The two proxies over the adapters of [busy] are well owned. *)
Lemma busy_well_owned : well_owned (heap busy) [pp1; pp2].
Proof.
  split.
  - apply (bool_decide_unpack _). reflexivity.
  - repeat constructor.
Defined.

(** An adapter over a null pointer, built in a state with room for it. *)
Lemma make_with_impl_wraps_new_object_null :
  new_fault busy (replicated_partition lw_nullptr) = None
  /\ exists l,
       result (run get new_fault (make_with_impl replicated_partition lw_nullptr) busy)
         = Returned {| _impl := u_to l |}
       /\ (l ∉ dom (heap busy))
       /\ heap (final (run get new_fault
                         (make_with_impl replicated_partition lw_nullptr) busy))
            = <[l := replicated_partition lw_nullptr]> (heap busy)
       /\ (forall l', l' <> l ->
             heap (final (run get new_fault
                            (make_with_impl replicated_partition lw_nullptr) busy)) !! l'
             = heap busy !! l')
       /\ cluster_pm (final (run get new_fault
                               (make_with_impl replicated_partition lw_nullptr) busy))
            = cluster_pm busy
       /\ gets (trace (run get new_fault
                         (make_with_impl replicated_partition lw_nullptr) busy)) = []
       /\ allocations (trace (run get new_fault
                                (make_with_impl replicated_partition lw_nullptr) busy))
            = [(l, replicated_partition lw_nullptr)].
Proof.
  split; [reflexivity | ].
  apply (make_with_impl_wraps_new_object get new_fault
           replicated_partition lw_nullptr busy).
  reflexivity.
Defined.

(** No room left: the exception of the call is the allocator's. *)
Lemma resolve_throws_only_callee_faults_orders3 :
  result (resolve orders3 full) = Thrown "std::bad_alloc"%string
  /\ (reply orders3 full = inl "std::bad_alloc"%string
      \/ exists h,
           reply orders3 full = inr (lw_to h)
           /\ new_fault (after_get orders3 full) (replicated_partition (lw_to h))
              = Some "std::bad_alloc"%string).
Proof.
  split; [reflexivity | ].
  apply (resolve_throws_only_callee_faults get new_fault orders3 full).
  reflexivity.
Defined.

(** Partition 4 of orders: the empty optional comes from a null pointer. *)
Lemma resolve_empty_only_when_absent_orders4 :
  result (resolve orders4 busy) = Returned None
  /\ reply orders4 busy = inr lw_nullptr.
Proof.
  split; [reflexivity | ].
  apply (resolve_empty_only_when_absent get new_fault orders4 busy).
  reflexivity.
Defined.

(** Two proxies are held when partition 3 of orders is resolved. *)
Lemma resolve_preserves_ownership_orders3 :
  well_owned (heap busy) [pp1; pp2]
  /\ well_owned (heap (final (resolve orders3 busy)))
       (held_after (resolve orders3 busy) [pp1; pp2])
  /\ (forall pp, result (resolve orders3 busy) = Returned (Some pp) ->
        pp ∉ [pp1; pp2]).
Proof.
  split; [exact busy_well_owned | ].
  apply (resolve_preserves_ownership get new_fault orders3 busy [pp1; pp2]).
  exact busy_well_owned.
Defined.

(** The proxy at address 2 is untouched by resolving partition 3. *)
Lemma resolve_keeps_live_proxy_orders3 :
  proxy_live (heap busy) pp2 = true
  /\ owned (heap (final (resolve orders3 busy))) pp2 = owned (heap busy) pp2
  /\ proxy_live (heap (final (resolve orders3 busy))) pp2 = true.
Proof.
  split; [reflexivity | ].
  apply (resolve_keeps_live_proxy get new_fault orders3 busy pp2).
  reflexivity.
Defined.

(** Resolve partition 3 with two proxies held, then destroy the first. *)
Lemma held_proxies_stay_well_owned_orders3 :
  rtc (client_step get new_fault) (busy, [pp1; pp2])
    (destroy pp1 (final (resolve orders3 busy)),
     filter (fun q => q <> pp1) (held_after (resolve orders3 busy) [pp1; pp2]))
  /\ well_owned (heap busy) [pp1; pp2]
  /\ well_owned (heap (destroy pp1 (final (resolve orders3 busy))))
       (filter (fun q => q <> pp1)
          (held_after (resolve orders3 busy) [pp1; pp2])).
Proof.
  assert (Hsteps :
    rtc (client_step get new_fault) (busy, [pp1; pp2])
      (destroy pp1 (final (resolve orders3 busy)),
       filter (fun q => q <> pp1)
         (held_after (resolve orders3 busy) [pp1; pp2]))).
  { eapply rtc_l; [apply client_resolve | ].
    eapply rtc_l; [ | apply rtc_refl].
    apply client_destroy. apply (bool_decide_unpack _). reflexivity. }
  split; [exact Hsteps | split; [exact busy_well_owned | ]].
  exact (held_proxies_stay_well_owned get new_fault _ _ _ _ Hsteps busy_well_owned).
Defined.

(** The adapter built for partition 3 is gone once its proxy is destroyed. *)
Lemma resolve_then_destroy_restores_heap_orders3 :
  result (resolve orders3 busy) = Returned (Some pp3)
  /\ heap (destroy pp3 (final (resolve orders3 busy))) = heap busy.
Proof.
  split; [reflexivity | ].
  apply (resolve_then_destroy_restores_heap get new_fault orders3 busy pp3).
  reflexivity.
Defined.

(** No room left when partition 3 of orders is resolved. *)
Lemma resolve_propagates_allocation_fault_orders3 :
  reply orders3 full = inr (lw_to 7%positive)
  /\ new_fault (after_get orders3 full) rp7 = Some "std::bad_alloc"%string
  /\ result (resolve orders3 full) = Thrown "std::bad_alloc"%string
  /\ result (resolve orders3 full) <> Returned None
  /\ allocations (trace (resolve orders3 full)) = []
  /\ heap (final (resolve orders3 full)) = heap full
  /\ cluster_pm (final (resolve orders3 full))
       = snd (get (cluster_pm full) orders3).
Proof.
  split; [reflexivity | split; [reflexivity | ]].
  apply (resolve_propagates_allocation_fault get new_fault orders3 full
           7%positive "std::bad_alloc"%string);
    reflexivity.
Defined.

End OwnershipScenarios.
